(** * str.h: tagged string slices with an ownership bit

    A shallow embedding of the inline functions and macros of [str.h]:
    the [str] record, its packed length/ownership word, the ownership
    movements ([str_assign], [str_move], [str_pass]), the reference
    constructors ([str_lit], [str_ref_impl]) and the code point loop
    ([for_each_cp]).

    Conventions.
    - [size_t] is a 64-bit unsigned integer (LP64); it is a [Z] and every
      operation that can leave the range is wrapped by [size_wrap].
    - A [const char*] is an address, a [Z]; [0] is the null pointer.
    - A C function taking [str* const ps] becomes a function of the value
      stored at [ps]; it returns the new value stored there next to its
      result.
    - The allocator's state is threaded explicitly; releasing an address
      that is not a live allocation is undefined in C and is [None] here. *)

From Stdlib Require Import ZArith Lia List Bool.
From Stdlib Require Import Strings.Byte Strings.String.
From stdpp Require Import gmap.
Import ListNotations.

Local Open Scope Z_scope.

(** ** [size_t] arithmetic *)

Definition size_bits : Z := 64.
Definition size_modulus : Z := 2 ^ size_bits.

(** Reduction of a mathematical integer to its [size_t] value. *)
Definition size_wrap (z : Z) : Z := z mod size_modulus.

(** [~(size_t)z] *)
Definition size_not (z : Z) : Z := size_wrap (Z.lnot z).

(** [z << n] on [size_t] *)
Definition size_shl (z n : Z) : Z := size_wrap (Z.shiftl z n).

(** [a - b] on [size_t] *)
Definition size_sub (a b : Z) : Z := size_wrap (a - b).

(** The values a [size_t] object can hold. *)
Definition is_size_t (z : Z) : Prop := 0 <= z < size_modulus.

(** The largest object size ([PTRDIFF_MAX]): no array, and so no string
    literal, is larger. *)
Definition PTRDIFF_MAX : Z := 2 ^ (size_bits - 1) - 1.

(** ** The string type *)

(** [typedef struct { const char* ptr; size_t info; } str;] *)
Record str : Type := mk_str { ptr : Z; info : Z }.

(** The values the C type can hold: an address and a [size_t]. *)
Definition wf_str (s : str) : Prop := 0 <= ptr s /\ is_size_t (info s).

(** [#define str_null ((str){ 0, 0 })] *)
Definition str_null : str := {| ptr := 0; info := 0 |}.

(** [#define str_ref_info(n) ((n) << 1)]
    The macro shifts in the type of its argument; this is the shift of a
    [size_t] argument, which is what [str.h] passes ([sizeof(s) - 1] in
    [str_lit]) and what a length read by [str_len] is. For an argument of
    a narrower type the C expression wraps at that type's width instead. *)
Definition str_ref_info (n : Z) : Z := size_shl n 1.

(** [#define str_owner_info(n) (str_ref_info(n) | 1)]
    For a [size_t] argument, as [str_ref_info]. *)
Definition str_owner_info (n : Z) : Z := Z.lor (str_ref_info n) 1.

(** [size_t str_len(const str s) { return s.info >> 1; }] *)
Definition str_len (s : str) : Z := Z.shiftr (info s) 1.

(** [bool str_is_empty(const str s) { return str_len(s) == 0; }] *)
Definition str_is_empty (s : str) : bool := str_len s =? 0.

(** [bool str_is_owner(const str s) { return (s.info & 1) != 0; }] *)
Definition str_is_owner (s : str) : bool := negb (Z.land (info s) 1 =? 0).

(** [bool str_is_ref(const str s) { return !str_is_owner(s); }] *)
Definition str_is_ref (s : str) : bool := negb (str_is_owner s).

(** ** Memory *)

(** The bytes of the address space.  Which addresses may be read is the
    caller's contract and is not tracked here; what the allocator has
    handed out and taken back is tracked by [heap] below. *)
Definition memory : Type := Z -> byte.

(** [n] bytes starting at address [p]. *)
Fixpoint read_bytes (m : memory) (p : Z) (n : nat) : list byte :=
  match n with
  | O => []
  | S k => m p :: read_bytes m (p + 1) k
  end.

(** A memory holding [bs] from address [base] on, zero elsewhere. *)
Definition memory_of (base : Z) (bs : list byte) : memory :=
  fun a => if (base <=? a) then nth (Z.to_nat (a - base)) bs x00 else x00.

(** The state of an address the allocator has handed out. *)
Inductive block_state : Type := Allocated | Released.

(** The allocator's view of the heap: the base addresses it has handed
    out, each still allocated or already released. *)
Abbreviation heap := (gmap Z block_state).

(** The allocator collaborator [free(p)]: nothing for the null pointer,
    releases a live allocation, undefined for anything else. *)
Definition mem_free (p : Z) (h : heap) : option heap :=
  if p =? 0 then Some h
  else match h !! p with
       | Some Allocated => Some (<[p := Released]> h)
       | _ => None
       end.

(** Modelled from the spec: [void str_free(const str s)] is only declared
    in [str.h]. "release(value) - frees the buffer if owning; no-op
    otherwise". *)
Definition str_free (s : str) (h : heap) : option heap :=
  if str_is_owner s then mem_free (ptr s) h else Some h.

(** The pointer of [s] is the base address of a buffer that has been
    returned to the allocator. The heap records base addresses and no
    extents, so this recognises a dangling pointer only at the start of
    a released buffer: a pointer into the interior of one is dangling as
    well and is not recognised. It is used to show that a pointer
    dangles, never that one does not. *)
Definition str_dangling (h : heap) (s : str) : Prop :=
  h !! ptr s = Some Released.

(** ** String movements *)

(** [void str_assign(str* const ps, const str s) { str_free( *ps ); *ps = s; }]
    The result is the new [*ps] and the heap. *)
Definition str_assign (ps : str) (s : str) (h : heap) : option (str * heap) :=
  match str_free ps h with
  | Some h' => Some (s, h')
  | None => None
  end.

(** [str str_move(str* const ps) { const str t = *ps; *ps = str_null; return t; }]
    The result is the returned value and the new [*ps]. *)
Definition str_move (ps : str) : str * str :=
  let t := ps in (t, str_null).

(** [str str_pass(str* const ps) { const str t = *ps; ps->info &= ~(size_t)1; return t; }]
    The result is the returned value and the new [*ps]. *)
Definition str_pass (ps : str) : str * str :=
  let t := ps in
  (t, {| ptr := ptr ps; info := Z.land (info ps) (size_not 1) |}).

(** [void str_clear(str* const ps) { str_assign(ps, str_null); }] *)
Definition str_clear (ps : str) (h : heap) : option (str * heap) :=
  str_assign ps str_null h.

(** Releasing two values one after the other, as a caller that drops
    both does. *)
Definition str_free_both (a b : str) (h : heap) : option heap :=
  match str_free a h with
  | Some h1 => str_free b h1
  | None => None
  end.

(** ** Constructors *)

(** [sizeof(s)] of a string literal whose characters are [s]: the
    characters and the terminating NUL. *)
Definition sizeof_lit (s : list byte) : Z :=
  size_wrap (Z.of_nat (length s) + 1).

(** [#define str_lit(s) ((str){ s, str_ref_info(sizeof(s) - 1) })]
    (the macro pastes an empty literal before [s], so that only a string
    literal is accepted); [addr] is where the literal is stored. *)
Definition str_lit (addr : Z) (s : list byte) : str :=
  {| ptr := addr; info := str_ref_info (size_sub (sizeof_lit s) 1) |}.

(** [str str_ref_impl(const str s) { return (str){ s.ptr, s.info & ~(size_t)1 }; }] *)
Definition str_ref_impl (s : str) : str :=
  {| ptr := ptr s; info := Z.land (info s) (size_not 1) |}.

(** ** Code point decoding results *)

(** What the code point decoding collaborator reports for the bytes
    between a cursor and the end: a code point and the number of bytes it
    took, an incomplete multi-byte sequence, or an invalid encoding. *)
Inductive decoded : Type :=
  | Decoded (cp : Z) (n : nat)
  | Incomplete
  | Invalid.

(** [#define CPI_END_OF_STRING ((char32_t)-1)] and its two siblings:
    [char32_t] is a 32-bit unsigned integer. *)
Definition char32_wrap (z : Z) : Z := z mod 2 ^ 32.
Definition CPI_END_OF_STRING : Z := char32_wrap (-1).
Definition CPI_ERR_INCOMPLETE_SEQ : Z := char32_wrap (-2).
Definition CPI_ERR_INVALID_ENCODING : Z := char32_wrap (-3).

(** The largest code point, the bound of the loop's test. *)
Definition CP_MAX : Z := 0x10FFFF.

(** The three values that are no code point. *)
Definition is_sentinel (v : Z) : Prop :=
  v = CPI_END_OF_STRING \/ v = CPI_ERR_INCOMPLETE_SEQ \/ v = CPI_ERR_INVALID_ENCODING.

(** A decoder for the one- and two-byte sequences of UTF-8, with no state;
    it stands for the collaborator in the examples. *)
Definition utf8_decode_short (st : unit) (bs : list byte) : decoded * unit :=
  match bs with
  | [] => (Incomplete, st)
  | b0 :: rest =>
      let c0 := Z.of_N (Byte.to_N b0) in
      if c0 <? 0x80 then (Decoded c0 1, st)
      else if (0xC2 <=? c0) && (c0 <=? 0xDF) then
        match rest with
        | [] => (Incomplete, st)
        | b1 :: _ =>
            let c1 := Z.of_N (Byte.to_N b1) in
            if (0x80 <=? c1) && (c1 <=? 0xBF)
            then (Decoded ((c0 - 0xC0) * 64 + (c1 - 0x80)) 2, st)
            else (Invalid, st)
        end
      else (Invalid, st)
  end.

(** ** Byte sequences *)

(** Lexicographic order on bytes taken as unsigned values: negative, zero
    or positive. *)
Fixpoint bytes_cmp (xs ys : list byte) : Z :=
  match xs, ys with
  | [], [] => 0
  | [], _ :: _ => -1
  | _ :: _, [] => 1
  | x :: xs', y :: ys' =>
      match N.compare (Byte.to_N x) (Byte.to_N y) with
      | Lt => -1
      | Gt => 1
      | Eq => bytes_cmp xs' ys'
      end
  end.

(** [p] is an initial segment of [s]. *)
Fixpoint is_prefix (p s : list byte) : bool :=
  match p, s with
  | [], _ => true
  | _ :: _, [] => false
  | a :: p', b :: s' => Byte.eqb a b && is_prefix p' s'
  end.

(** Offset of the first occurrence of [p] in [s], by a naive scan. *)
Fixpoint find_first (p s : list byte) : option nat :=
  if is_prefix p s then Some O
  else match s with
       | [] => None
       | _ :: s' => option_map S (find_first p s')
       end.

(** ** Sample values *)

(** An owner of five bytes at address 4096, and a reference to them. *)
Definition sample_owner : str := {| ptr := 4096; info := str_owner_info 5 |}.
Definition sample_ref : str := {| ptr := 4096; info := str_ref_info 5 |}.

(** A heap in which the buffer of [sample_owner] is live. *)
Definition sample_heap : heap := {[ 4096 := Allocated ]}.

(** The characters of a literal, and of a source and a pattern to search
    in it. *)
Definition sample_literal : list byte := list_byte_of_string "hello".

(** A memory with the source at 4096 and, after its NUL, the pattern at
    4106. *)
Definition sample_memory : memory :=
  memory_of 4096
    (list_byte_of_string "key=value" ++ [x00] ++ list_byte_of_string "=" ++ [x00]).
Definition sample_src : str := {| ptr := 4096; info := str_ref_info 9 |}.
Definition sample_patt : str := {| ptr := 4106; info := str_ref_info 1 |}.

(** An address for the shared empty string. *)
Definition sample_empty_string : Z := 64.

(** A memory with the three bytes of h, e-acute in UTF-8. *)
Definition sample_utf8_memory : memory := memory_of 4096 [x68; xc3; xa9].
Definition sample_utf8 : str := {| ptr := 4096; info := str_ref_info 3 |}.

(** ** Ownership bookkeeping and stored bytes *)

(** How many of the values [l] are owners. *)
Definition owner_count (l : list str) : nat :=
  length (List.filter str_is_owner l).

(** Memory [m] holds the bytes [bs] from address [p] on. *)
Definition holds_at (m : memory) (p : Z) (bs : list byte) : Prop :=
  read_bytes m p (length bs) = bs.

(** The loop of [for_each_cp] over any iterator type and any function in
    the place of [str_cp_iterator_next], which [str.h] only declares:
    [for(...; (var = next(&it)) <= 0x10FFFFu;) body]
    The result is as for [for_each_cp_loop] below. *)
Fixpoint for_each_cp_with {I : Type} (next : I -> Z * I) (fuel : nat) (it : I)
  : option (list Z * Z) :=
  match fuel with
  | O => None
  | S fuel' =>
      let '(var, it') := next it in
      if var <=? 0x10FFFF then
        match for_each_cp_with next fuel' it' with
        | Some (seen, stop) => Some (var :: seen, stop)
        | None => None
        end
      else Some ([], var)
  end.

(** A memory with the literal of [sample_literal] at 4096. *)
Definition sample_literal_memory : memory :=
  memory_of 4096 (list_byte_of_string "hello" ++ [x00]).

(** An iterator for the examples: a countdown that yields [n + 64] while
    [n] is not zero and the end-of-string sentinel after that. *)
Definition countdown_next (n : nat) : Z * nat :=
  match n with
  | O => (CPI_END_OF_STRING, O)
  | S k => (Z.of_nat n + 64, k)
  end.

Section Str.

Set Default Proof Using "Type".

(** [extern const char* const str_empty_string;] the address of the shared
    empty string, defined outside [str.h]. It is the address of an object,
    so it is not null. *)
Variable str_empty_string : Z.
Hypothesis str_empty_string_nonnull : 0 < str_empty_string.

(** [const char* str_ptr(const str s) { return s.ptr ? s.ptr : str_empty_string; }] *)
Definition str_ptr (s : str) : Z :=
  if ptr s =? 0 then str_empty_string else ptr s.

(** [const char* str_end(const str s) { return str_ptr(s) + str_len(s); }] *)
Definition str_end (s : str) : Z := str_ptr s + str_len s.

(** The logical content of [s]: the [str_len s] bytes at [str_ptr s]. *)
Definition str_bytes (m : memory) (s : str) : list byte :=
  read_bytes m (str_ptr s) (Z.to_nat (str_len s)).

(** ** Comparison and search *)

(** Modelled from the spec: [int str_cmp(const str s1, const str s2)] is
    only declared in [str.h]. "compare - lexicographic, byte-wise, returns
    negative/zero/positive". *)
Definition str_cmp (m : memory) (s1 s2 : str) : Z :=
  bytes_cmp (str_bytes m s1) (str_bytes m s2).

(** [bool str_eq(const str s1, const str s2) { return str_cmp(s1, s2) == 0; }] *)
Definition str_eq (m : memory) (s1 s2 : str) : bool :=
  str_cmp m s1 s2 =? 0.

(** Modelled from the spec: [str str_ref_chars(const char* const s, const size_t n)]
    is only declared in [str.h]. "Reference from a byte range: zero-cost,
    never owning". *)
Definition str_ref_chars (s : Z) (n : Z) : str :=
  {| ptr := s; info := str_ref_info n |}.

(** Modelled from the spec: [bool str_partition(const str src, const str patt,
    str* const prefix, str* const suffix)] is only declared in [str.h].
    "finds the first occurrence of pattern in source; on success,
    out_prefix is the portion before the match and out_suffix the portion
    after (both as references into source's bytes, never copies), and the
    function returns success; on no match, returns failure and leaves the
    outputs unchanged". The result is the returned flag, the new [*prefix]
    and the new [*suffix]. *)
Definition str_partition (m : memory) (src patt : str) (prefix suffix : str)
  : bool * str * str :=
  match find_first (str_bytes m patt) (str_bytes m src) with
  | Some k =>
      let s := str_ptr src + Z.of_nat k in
      (true,
       str_ref_chars (str_ptr src) (s - str_ptr src),
       str_ref_chars (s + str_len patt) (str_end src - (s + str_len patt)))
  | None => (false, prefix, suffix)
  end.

(** ** Code point iterator *)

(** [mbstate_t], the decoder's conversion state, and its zero value. *)
Variable mbstate : Type.
Variable mbstate_zero : mbstate.

(** The code point decoding collaborator: from the conversion state and the
    bytes between the cursor and the end. *)
Variable decode_one : mbstate -> list byte -> decoded * mbstate.

(** What a decoder promises: a decoded code point is a code point, and it
    took at least one byte. *)
Hypothesis decode_one_range : forall st bs cp n st',
  decode_one st bs = (Decoded cp n, st') -> 0 <= cp <= CP_MAX.
Hypothesis decode_one_consumes : forall st bs cp n st',
  decode_one st bs = (Decoded cp n, st') -> (1 <= n)%nat.

(** [typedef struct { const char* curr; const char* const end; mbstate_t state; }
    str_cp_iterator;] ([end] is written [end_]). *)
Record str_cp_iterator : Type :=
  mk_cp_iterator { curr : Z; end_ : Z; state : mbstate }.

(** [str_cp_iterator str_make_cp_iterator(const str s)
    { return (str_cp_iterator){ .curr = str_ptr(s), .end = str_end(s) }; }]
    The state is not named, so it is zero. *)
Definition str_make_cp_iterator (s : str) : str_cp_iterator :=
  {| curr := str_ptr s; end_ := str_end s; state := mbstate_zero |}.

(** Modelled from the spec: [char32_t str_cp_iterator_next(str_cp_iterator* const it)]
    is only declared in [str.h]. "Each call returns a code point in
    [0, 0x10FFFF] on success, or one of three sentinel outcomes:
    end-of-string, incomplete multi-byte sequence, invalid encoding", from
    "decode one codepoint from a byte cursor". The result is the returned
    value and the new [*it]. *)
Definition str_cp_iterator_next (m : memory) (it : str_cp_iterator)
  : Z * str_cp_iterator :=
  if end_ it <=? curr it then (CPI_END_OF_STRING, it)
  else
    match decode_one (state it)
            (read_bytes m (curr it) (Z.to_nat (end_ it - curr it))) with
    | (Decoded cp n, st) =>
        (cp, {| curr := curr it + Z.of_nat n; end_ := end_ it; state := st |})
    | (Incomplete, st) =>
        (CPI_ERR_INCOMPLETE_SEQ,
         {| curr := curr it; end_ := end_ it; state := st |})
    | (Invalid, st) =>
        (CPI_ERR_INVALID_ENCODING,
         {| curr := curr it; end_ := end_ it; state := st |})
    end.

(** The loop of [for_each_cp], from an iterator:
    [for(...; (var = str_cp_iterator_next(&it)) <= 0x10FFFFu;) body]
    The result is the values of [var] the body ran with, in order, and the
    value of [var] that ended the loop; [None] when [fuel] iterations did
    not end it. *)
Fixpoint for_each_cp_loop (fuel : nat) (m : memory) (it : str_cp_iterator)
  : option (list Z * Z) :=
  match fuel with
  | O => None
  | S fuel' =>
      let '(var, it') := str_cp_iterator_next m it in
      if var <=? 0x10FFFF then
        match for_each_cp_loop fuel' m it' with
        | Some (seen, stop) => Some (var :: seen, stop)
        | None => None
        end
      else Some ([], var)
  end.

(** [#define for_each_cp(var, src, it)
    for(str_cp_iterator it = str_make_cp_iterator(src); ...;)] *)
Definition for_each_cp (fuel : nat) (m : memory) (src : str)
  : option (list Z * Z) :=
  for_each_cp_loop fuel m (str_make_cp_iterator src).

(** * Properties *)

(** ** The packed word *)

Lemma size_not_1 : size_not 1 = size_modulus - 2.
Proof. reflexivity. Qed.

Lemma size_not_1_shiftr : Z.shiftr (size_not 1) 1 = Z.ones (size_bits - 1).
Proof. reflexivity. Qed.

(** Clearing bit 0 leaves bit 0 clear. *)
Lemma clear_low_bit_even (i : Z) : Z.land (Z.land i (size_not 1)) 1 = 0.
Proof.
  rewrite <- Z.land_assoc.
  change (Z.land (size_not 1) 1) with 0.
  apply Z.land_0_r.
Qed.

(** Clearing bit 0 of a [size_t] leaves the bits above it. *)
Lemma clear_low_bit_shiftr (i : Z) :
  is_size_t i -> Z.shiftr (Z.land i (size_not 1)) 1 = Z.shiftr i 1.
Proof.
  intros [Hlo Hhi].
  rewrite Z.shiftr_land, size_not_1_shiftr.
  rewrite Z.land_ones by (unfold size_bits; lia).
  apply Z.mod_small.
  rewrite Z.shiftr_div_pow2 by lia.
  change (2 ^ 1) with 2.
  unfold size_modulus, size_bits in *.
  change (2 ^ 64) with (2 * 2 ^ (64 - 1)) in Hhi.
  split.
  - apply Z.div_pos; lia.
  - apply Z.div_lt_upper_bound; lia.
Qed.

Lemma land_1_mod (i : Z) : Z.land i 1 = i mod 2.
Proof. change 1 with (Z.ones 1) at 1. now rewrite Z.land_ones by lia. Qed.

(** Clearing bit 0 of an even [size_t] changes nothing. *)
Lemma clear_low_bit_id (i : Z) :
  is_size_t i -> Z.land i 1 = 0 -> Z.land i (size_not 1) = i.
Proof.
  intros Hi Hev.
  pose proof (clear_low_bit_shiftr i Hi) as Hsh.
  pose proof (clear_low_bit_even i) as Hz.
  rewrite land_1_mod in Hev, Hz.
  rewrite !Z.shiftr_div_pow2 in Hsh by lia.
  change (2 ^ 1) with 2 in Hsh.
  pose proof (Z.div_mod i 2 ltac:(lia)).
  pose proof (Z.div_mod (Z.land i (size_not 1)) 2 ltac:(lia)).
  lia.
Qed.

Lemma clear_low_bit_idem (i : Z) :
  Z.land (Z.land i (size_not 1)) (size_not 1) = Z.land i (size_not 1).
Proof. now rewrite <- Z.land_assoc, Z.land_diag. Qed.

Lemma clear_low_bit_size_t (i : Z) :
  is_size_t i -> is_size_t (Z.land i (size_not 1)).
Proof.
  intros [Hlo Hhi]. split.
  - apply Z.land_nonneg; lia.
  - assert (Z.land i (size_not 1) <= i); [|lia].
    pose proof (clear_low_bit_shiftr i (conj Hlo Hhi)) as Hsh.
    pose proof (clear_low_bit_even i) as Hz.
    rewrite land_1_mod in Hz.
    rewrite !Z.shiftr_div_pow2 in Hsh by lia.
    change (2 ^ 1) with 2 in Hsh.
    pose proof (Z.div_mod i 2 ltac:(lia)).
    pose proof (Z.div_mod (Z.land i (size_not 1)) 2 ltac:(lia)).
    pose proof (Z.mod_pos_bound i 2 ltac:(lia)).
    lia.
Qed.

(** [str_ref_info] never sets the ownership bit, whatever its argument. *)
Lemma str_ref_info_even (n : Z) : Z.land (str_ref_info n) 1 = 0.
Proof.
  rewrite land_1_mod.
  unfold str_ref_info, size_shl, size_wrap.
  rewrite Z.shiftl_mul_pow2 by lia.
  change (2 ^ 1) with 2.
  unfold size_modulus, size_bits.
  change (2 ^ 64) with (2 * 2 ^ 63).
  rewrite Z.mul_comm, Z.mul_mod_distr_l by lia.
  rewrite Z.mul_comm. apply Z.mod_mul. lia.
Qed.

(** Below [2^63] the length survives the packing. *)
Lemma str_ref_info_shiftr (n : Z) :
  0 <= n <= PTRDIFF_MAX -> Z.shiftr (str_ref_info n) 1 = n.
Proof.
  unfold PTRDIFF_MAX, size_bits. change (2 ^ (64 - 1) - 1) with (2 ^ 63 - 1).
  intros Hn.
  unfold str_ref_info, size_shl, size_wrap, size_modulus, size_bits.
  rewrite Z.shiftl_mul_pow2 by lia.
  change (2 ^ 1) with 2.
  rewrite Z.mod_small by lia.
  rewrite Z.shiftr_div_pow2 by lia.
  change (2 ^ 1) with 2.
  apply Z.div_mul. lia.
Qed.

(** ** Ownership *)

Lemma str_is_owner_clear (i : Z) (p : Z) :
  str_is_owner {| ptr := p; info := Z.land i (size_not 1) |} = false.
Proof. unfold str_is_owner; simpl. now rewrite clear_low_bit_even. Qed.

Lemma str_is_owner_null : str_is_owner str_null = false.
Proof. reflexivity. Qed.

Lemma str_free_ref (s : str) (h : heap) :
  str_is_owner s = false -> str_free s h = Some h.
Proof. intros H. unfold str_free. now rewrite H. Qed.

Lemma str_free_owner (s : str) (h : heap) :
  str_is_owner s = true -> ptr s <> 0 -> h !! ptr s = Some Allocated ->
  str_free s h = Some (<[ptr s := Released]> h).
Proof.
  intros Ho Hp Hl. unfold str_free, mem_free. rewrite Ho.
  destruct (Z.eqb_spec (ptr s) 0) as [E|_]; [contradiction|].
  now rewrite Hl.
Qed.

(** C9: [str_ref_impl] changes the ownership bit only: the result is not
    an owner, and its pointer and its length are those of the argument;
    clearing the low bit of the packed word leaves [info >> 1]. *)
Theorem str_ref_impl_frame (s : str) :
  is_size_t (info s) ->
  str_is_owner (str_ref_impl s) = false /\
  ptr (str_ref_impl s) = ptr s /\
  str_len (str_ref_impl s) = str_len s /\
  Z.shiftr (Z.land (info s) (size_not 1)) 1 = Z.shiftr (info s) 1.
Proof.
  intros Hs. unfold str_ref_impl.
  repeat split.
  - apply str_is_owner_clear.
  - unfold str_len; simpl. now apply clear_low_bit_shiftr.
  - now apply clear_low_bit_shiftr.
Qed.

(** C10: on a variable holding a reference [str_pass] returns the value
    and leaves the variable as it was; on any variable, a second
    [str_pass] returns the state the first one left and leaves it in
    place. *)
Theorem str_pass_idempotent (x : str) :
  is_size_t (info x) ->
  (str_is_ref x = true -> str_pass x = (x, x)) /\
  (forall t1 x1, str_pass x = (t1, x1) ->
     str_is_ref x1 = true /\ str_pass x1 = (x1, x1)).
Proof.
  intros Hx. split.
  - intros Href. unfold str_pass. f_equal.
    destruct x as [p i]; simpl in *. f_equal.
    apply clear_low_bit_id; [exact Hx|].
    unfold str_is_ref, str_is_owner in Href; simpl in Href.
    rewrite negb_involutive in Href. now apply Z.eqb_eq.
  - intros t1 x1 E. unfold str_pass in E.
    injection E as _ <-. split.
    + unfold str_is_ref. now rewrite str_is_owner_clear.
    + unfold str_pass; simpl. now rewrite clear_low_bit_idem.
Qed.

(** C6: the value [str_lit] builds from a literal is never an owner, and
    its length is the number of bytes of the literal without the
    terminating NUL, [sizeof(L) - 1]; the macro is an expression over the
    literal alone and touches no allocator state. The literal is an
    object, so its size is at most [PTRDIFF_MAX]. *)
Theorem str_lit_ref_length (addr : Z) (L : list byte) :
  Z.of_nat (length L) + 1 <= PTRDIFF_MAX ->
  str_is_owner (str_lit addr L) = false /\
  str_is_ref (str_lit addr L) = true /\
  str_len (str_lit addr L) = Z.of_nat (length L) /\
  str_len (str_lit addr L) = sizeof_lit L - 1 /\
  ptr (str_lit addr L) = addr.
Proof.
  intros HL.
  assert (Hmax : PTRDIFF_MAX < size_modulus) by reflexivity.
  assert (Hsz : sizeof_lit L = Z.of_nat (length L) + 1).
  { unfold sizeof_lit, size_wrap. apply Z.mod_small. lia. }
  assert (Hsub : size_sub (sizeof_lit L) 1 = Z.of_nat (length L)).
  { rewrite Hsz. unfold size_sub, size_wrap.
    replace (Z.of_nat (length L) + 1 - 1) with (Z.of_nat (length L)) by lia.
    apply Z.mod_small. lia. }
  assert (Ho : str_is_owner (str_lit addr L) = false).
  { unfold str_is_owner, str_lit; simpl. now rewrite str_ref_info_even. }
  assert (Hlen : str_len (str_lit addr L) = Z.of_nat (length L)).
  { unfold str_len, str_lit; simpl. rewrite Hsub.
    apply str_ref_info_shiftr. lia. }
  repeat split; try assumption.
  - unfold str_is_ref. now rewrite Ho.
  - rewrite Hlen, Hsz. lia.
Qed.

(** C3: [str_move] returns the value the variable held and leaves
    [str_null] in the variable: length 0, not an owner; releasing the
    variable afterwards changes nothing. [str_move] is a total function
    that does not touch the allocator, so it cannot fail. *)
Theorem str_move_resets (x : str) (h : heap) :
  fst (str_move x) = x /\
  str_is_owner (fst (str_move x)) = str_is_owner x /\
  snd (str_move x) = str_null /\
  str_len (snd (str_move x)) = 0 /\
  str_is_empty (snd (str_move x)) = true /\
  str_is_owner (snd (str_move x)) = false /\
  str_free (snd (str_move x)) h = Some h.
Proof. repeat split. Qed.

(** C2 as stated fails: the value [str_pass] returns for an owner is
    still an owner (it is the variable's former value, bit included). *)
Lemma str_pass_returns_owner :
  let x := {| ptr := 4096; info := str_owner_info 3 |} in
  is_size_t (info x) /\
  str_is_owner x = true /\
  str_is_owner (fst (str_pass x)) = true /\
  fst (str_pass x) <> str_ref_impl x.
Proof.
  cbv zeta.
  split; [vm_compute; split; [discriminate | reflexivity]|].
  split; [reflexivity|].
  split; [reflexivity|].
  intros E. vm_compute in E. discriminate E.
Qed.

(** C2, amended: [str_pass] returns the variable's former value unchanged
    (an owner when the variable was one) and leaves the variable a
    reference to the same bytes: same pointer, same length, not an owner.
    Releasing the returned value and then the variable is releasing the
    former value once: no buffer is freed twice. *)
Theorem str_pass_hands_over (x : str) :
  is_size_t (info x) ->
  fst (str_pass x) = x /\
  ptr (snd (str_pass x)) = ptr x /\
  str_len (snd (str_pass x)) = str_len x /\
  str_is_owner (snd (str_pass x)) = false /\
  (forall h, str_free_both (fst (str_pass x)) (snd (str_pass x)) h = str_free x h) /\
  (forall h, str_is_owner x = true -> ptr x <> 0 -> h !! ptr x = Some Allocated ->
     str_free_both (fst (str_pass x)) (snd (str_pass x)) h
     = Some (<[ptr x := Released]> h)).
Proof.
  intros Hx.
  assert (Hboth : forall h,
    str_free_both (fst (str_pass x)) (snd (str_pass x)) h = str_free x h).
  { intros h. unfold str_free_both; simpl.
    destruct (str_free x h) as [h1|]; [|reflexivity].
    apply str_free_ref, str_is_owner_clear. }
  split; [reflexivity|].
  split; [reflexivity|].
  split; [unfold str_len; simpl; now apply clear_low_bit_shiftr|].
  split; [apply str_is_owner_clear|].
  split; [exact Hboth|].
  intros h Ho Hp Hl. rewrite Hboth. now apply str_free_owner.
Qed.

(** C1 as stated fails: assigning to an owner a value with the owner's own
    pointer stores a pointer to the buffer that was just freed. *)
Lemma str_assign_alias_dangles :
  let d := {| ptr := 4096; info := str_owner_info 3 |} in
  let h : heap := {[ 4096 := Allocated ]} in
  str_is_owner d = true /\
  h !! ptr d = Some Allocated /\
  str_assign d d h = Some (d, <[4096 := Released]> h) /\
  str_dangling (<[4096 := Released]> h) d.
Proof.
  cbv zeta.
  set (d := {| ptr := 4096; info := str_owner_info 3 |}).
  assert (Hl : ({[ 4096 := Allocated ]} : heap) !! ptr d = Some Allocated)
    by apply lookup_singleton_eq.
  split; [reflexivity|].
  split; [exact Hl|].
  split.
  - unfold str_assign.
    rewrite (str_free_owner d _ eq_refl ltac:(discriminate) Hl).
    reflexivity.
  - apply lookup_insert_eq.
Qed.

(** C1, amended: [str_assign] releases the destination's content when the
    destination is an owner and then stores the new value, whatever the
    new value is: there is no guard for aliasing. The destination then
    holds the new value, and when the new value's pointer is the owned
    pointer of the destination, the destination holds the freed
    buffer. *)
Theorem str_assign_frees_then_stores (d s : str) (h : heap) :
  (str_is_owner d = false -> str_assign d s h = Some (s, h)) /\
  (str_is_owner d = true -> ptr d <> 0 -> h !! ptr d = Some Allocated ->
     exists h',
       str_assign d s h = Some (s, h') /\
       h' = <[ptr d := Released]> h /\
       (ptr s = ptr d -> str_dangling h' s)).
Proof.
  split.
  - intros Hr. unfold str_assign. now rewrite str_free_ref.
  - intros Ho Hp Hl. exists (<[ptr d := Released]> h).
    split; [|split].
    + unfold str_assign. now rewrite str_free_owner.
    + reflexivity.
    + intros E. unfold str_dangling. rewrite E. apply lookup_insert_eq.
Qed.

(** ** The pointer accessor *)

(** C4: a value of length 0 has the empty content whatever its pointer
    is, and [str_ptr] is never null: for a null pointer it is the shared
    empty string. *)
Theorem str_ptr_never_null (m : memory) (s : str) :
  str_ptr s <> 0 /\
  (ptr s = 0 -> str_ptr s = str_empty_string) /\
  (ptr s <> 0 -> str_ptr s = ptr s) /\
  (str_len s = 0 -> str_is_empty s = true /\ str_bytes m s = []).
Proof using str_empty_string_nonnull.
  unfold str_ptr.
  destruct (Z.eqb_spec (ptr s) 0) as [E|E].
  - repeat split; try lia; try congruence.
    + unfold str_is_empty. now apply Z.eqb_eq.
    + unfold str_bytes. now rewrite H.
  - repeat split; try congruence.
    + unfold str_is_empty. now apply Z.eqb_eq.
    + unfold str_bytes. now rewrite H.
Qed.

(** ** Byte sequences *)

Lemma byte_to_N_inj (x y : byte) : Byte.to_N x = Byte.to_N y -> x = y.
Proof.
  intros E. pose proof (Byte.of_to_N x) as Hx.
  rewrite E, Byte.of_to_N in Hx. congruence.
Qed.

Lemma bytes_cmp_eq (xs ys : list byte) : bytes_cmp xs ys = 0 <-> xs = ys.
Proof.
  revert ys. induction xs as [|x xs IH]; intros [|y ys]; simpl;
    try (split; [lia | discriminate]); [tauto|].
  destruct (N.compare_spec (Byte.to_N x) (Byte.to_N y)) as [E|L|L].
  - apply byte_to_N_inj in E. subst y. rewrite IH.
    split; [congruence | now injection 1].
  - split; [lia | ]. injection 1 as -> _. lia.
  - split; [lia | ]. injection 1 as -> _. lia.
Qed.

Lemma bytes_cmp_opp (xs ys : list byte) : bytes_cmp ys xs = - bytes_cmp xs ys.
Proof.
  revert ys. induction xs as [|x xs IH]; intros [|y ys]; simpl; try reflexivity.
  rewrite (N.compare_antisym (Byte.to_N x) (Byte.to_N y)).
  destruct (Byte.to_N x ?= Byte.to_N y)%N; simpl; [apply IH | reflexivity..].
Qed.

Lemma bytes_cmp_trans (xs ys zs : list byte) :
  (bytes_cmp xs ys <= 0 -> bytes_cmp ys zs <= 0 -> bytes_cmp xs zs <= 0) /\
  (bytes_cmp xs ys < 0 -> bytes_cmp ys zs <= 0 -> bytes_cmp xs zs < 0) /\
  (bytes_cmp xs ys <= 0 -> bytes_cmp ys zs < 0 -> bytes_cmp xs zs < 0).
Proof.
  revert ys zs.
  induction xs as [|x xs IH]; intros [|y ys] [|z zs]; simpl; try lia.
  specialize (IH ys zs).
  destruct (N.compare_spec (Byte.to_N x) (Byte.to_N y));
    destruct (N.compare_spec (Byte.to_N y) (Byte.to_N z));
    destruct (N.compare_spec (Byte.to_N x) (Byte.to_N z));
    try lia; exact IH.
Qed.

(** C5: [str_cmp] is zero exactly when [str_eq] holds, and exactly when
    the two contents are the same bytes; swapping the arguments negates
    its sign; it is transitive, strictly and weakly: a total order on
    byte sequences. *)
Theorem str_cmp_total_order (m : memory) (a b c : str) :
  (str_cmp m a b = 0 <-> str_eq m a b = true) /\
  (str_cmp m a b = 0 <-> str_bytes m a = str_bytes m b) /\
  Z.sgn (str_cmp m b a) = - Z.sgn (str_cmp m a b) /\
  (str_cmp m a b < 0 -> str_cmp m b c < 0 -> str_cmp m a c < 0) /\
  (str_cmp m a b <= 0 -> str_cmp m b c <= 0 -> str_cmp m a c <= 0) /\
  (str_cmp m a b < 0 \/ str_cmp m a b = 0 \/ str_cmp m b a < 0).
Proof.
  unfold str_eq, str_cmp.
  pose proof (bytes_cmp_trans (str_bytes m a) (str_bytes m b) (str_bytes m c))
    as (Hle & Hlt & _).
  pose proof (bytes_cmp_opp (str_bytes m a) (str_bytes m b)) as Hopp.
  split; [symmetry; apply Z.eqb_eq|].
  split; [apply bytes_cmp_eq|].
  split; [rewrite Hopp; apply Z.sgn_opp|].
  split; [lia|].
  split; [exact Hle|].
  lia.
Qed.

(** ** Substring search *)

Lemma read_bytes_length (m : memory) (n : nat) (p : Z) :
  length (read_bytes m p n) = n.
Proof. revert p. induction n as [|n IH]; intros p; simpl; [|rewrite IH]; reflexivity. Qed.

Lemma read_bytes_app (m : memory) (a b : nat) (p : Z) :
  read_bytes m p (a + b) = read_bytes m p a ++ read_bytes m (p + Z.of_nat a) b.
Proof.
  revert p. induction a as [|a IH]; intros p.
  - simpl. now rewrite Z.add_0_r.
  - cbn [Nat.add read_bytes app]. rewrite IH. do 3 f_equal. lia.
Qed.

Lemma read_bytes_take (m : memory) (a n : nat) (p : Z) :
  (a <= n)%nat -> take a (read_bytes m p n) = read_bytes m p a.
Proof.
  intros H. replace n with (a + (n - a))%nat by lia.
  rewrite read_bytes_app.
  rewrite take_app_length'; [reflexivity | now rewrite read_bytes_length].
Qed.

Lemma read_bytes_drop (m : memory) (a n : nat) (p : Z) :
  (a <= n)%nat ->
  drop a (read_bytes m p n) = read_bytes m (p + Z.of_nat a) (n - a).
Proof.
  intros H. replace n with (a + (n - a))%nat at 1 by lia.
  rewrite read_bytes_app.
  rewrite drop_app_length'; [reflexivity | now rewrite read_bytes_length].
Qed.

Lemma is_prefix_app (p s : list byte) :
  is_prefix p s = true -> s = p ++ drop (length p) s.
Proof.
  revert s. induction p as [|a p IH]; intros [|b s]; simpl; try discriminate;
    try reflexivity.
  intros H. apply andb_true_iff in H as [Hab Hp].
  apply Byte.byte_dec_bl in Hab. subst b. f_equal. now apply IH.
Qed.

Lemma is_prefix_length (p s : list byte) :
  is_prefix p s = true -> (length p <= length s)%nat.
Proof.
  revert s. induction p as [|a p IH]; intros [|b s]; simpl; try discriminate;
    try lia.
  intros H. apply andb_true_iff in H as [_ Hp]. apply IH in Hp. lia.
Qed.

(** [find_first] answers the least offset at which the pattern starts. *)
Lemma find_first_some (p s : list byte) (k : nat) :
  find_first p s = Some k ->
  is_prefix p (drop k s) = true /\
  (k + length p <= length s)%nat /\
  (forall j, (j < k)%nat -> is_prefix p (drop j s) = false).
Proof.
  revert k. induction s as [|b s IH]; intros k; simpl.
  - destruct (is_prefix p []) eqn:E; [|discriminate].
    injection 1 as <-. split; [exact E|]. split; [|lia].
    apply is_prefix_length in E. simpl in *. lia.
  - destruct (is_prefix p (b :: s)) eqn:E.
    + injection 1 as <-. split; [exact E|]. split; [|lia].
      apply is_prefix_length in E. simpl in *. lia.
    + destruct (find_first p s) as [k'|] eqn:F; [|discriminate].
      simpl. injection 1 as <-.
      destruct (IH k' eq_refl) as (Hp & Hl & Hmin).
      split; [exact Hp|]. split; [simpl; lia|].
      intros [|j] Hj; [exact E|]. simpl. apply Hmin. lia.
Qed.

Lemma find_first_none (p s : list byte) :
  find_first p s = None -> forall j, is_prefix p (drop j s) = false.
Proof.
  induction s as [|b s IH]; simpl.
  - destruct (is_prefix p []) eqn:E; [discriminate|].
    intros _ j. now rewrite drop_nil.
  - destruct (is_prefix p (b :: s)) eqn:E; [discriminate|].
    destruct (find_first p s) eqn:F; [discriminate|].
    intros _ [|j]; [exact E|]. simpl. now apply IH.
Qed.

Lemma str_len_bounds (s : str) :
  is_size_t (info s) -> 0 <= str_len s <= PTRDIFF_MAX.
Proof.
  intros [Hlo Hhi]. unfold str_len.
  rewrite Z.shiftr_div_pow2 by lia. change (2 ^ 1) with 2.
  unfold PTRDIFF_MAX, size_modulus, size_bits in *.
  change (2 ^ 64) with (2 * 2 ^ (64 - 1)) in Hhi.
  split; [apply Z.div_pos; lia|].
  assert (info s / 2 < 2 ^ (64 - 1)); [|lia].
  apply Z.div_lt_upper_bound; lia.
Qed.

Lemma str_ptr_pos (s : str) : 0 <= ptr s -> 0 < str_ptr s.
Proof using str_empty_string_nonnull.
  intros H. unfold str_ptr. destruct (Z.eqb_spec (ptr s) 0); lia.
Qed.

Lemma str_ptr_ref_chars (p n : Z) :
  0 < p -> str_ptr (str_ref_chars p n) = p.
Proof.
  intros Hp. unfold str_ptr, str_ref_chars; simpl.
  destruct (Z.eqb_spec p 0); [lia | reflexivity].
Qed.

Lemma str_len_ref_chars (p n : Z) :
  0 <= n <= PTRDIFF_MAX -> str_len (str_ref_chars p n) = n.
Proof. intros Hn. unfold str_len, str_ref_chars; simpl. now apply str_ref_info_shiftr. Qed.

Lemma str_bytes_ref_chars (m : memory) (p n : Z) :
  0 < p -> 0 <= n <= PTRDIFF_MAX ->
  str_bytes m (str_ref_chars p n) = read_bytes m p (Z.to_nat n).
Proof.
  intros Hp Hn. unfold str_bytes.
  now rewrite str_ptr_ref_chars, str_len_ref_chars.
Qed.

(** C8: when [str_partition] succeeds, the prefix, the pattern and the
    suffix put together are the source, byte for byte; the prefix ends
    where the pattern first occurs, and both outputs are references into
    the source. When it fails, the pattern occurs nowhere and the outputs
    are what they were. *)
Theorem str_partition_round_trip (m : memory) (src patt prefix suffix : str) :
  wf_str src -> wf_str patt ->
  forall found prefix' suffix',
  str_partition m src patt prefix suffix = (found, prefix', suffix') ->
  (found = true ->
     str_bytes m prefix' ++ str_bytes m patt ++ str_bytes m suffix'
       = str_bytes m src /\
     is_prefix (str_bytes m patt)
       (drop (length (str_bytes m prefix')) (str_bytes m src)) = true /\
     (forall j, (j < length (str_bytes m prefix'))%nat ->
        is_prefix (str_bytes m patt) (drop j (str_bytes m src)) = false) /\
     str_is_ref prefix' = true /\ str_is_ref suffix' = true /\
     str_ptr prefix' = str_ptr src /\ str_end suffix' = str_end src) /\
  (found = false ->
     prefix' = prefix /\ suffix' = suffix /\
     forall j, is_prefix (str_bytes m patt) (drop j (str_bytes m src)) = false).
Proof using str_empty_string_nonnull.
  intros [Hps His] [Hpp Hip] found prefix' suffix' E.
  unfold str_partition in E.
  destruct (find_first (str_bytes m patt) (str_bytes m src)) as [k|] eqn:F.
  - injection E as <- <- <-. split; [intros _ | discriminate].
    apply find_first_some in F as (Hpre & Hlen & Hmin).
    pose proof (str_len_bounds src His) as Hls.
    pose proof (str_len_bounds patt Hip) as Hlp.
    pose proof (str_ptr_pos src Hps) as Hpos.
    assert (Hn : length (str_bytes m src) = Z.to_nat (str_len src))
      by apply read_bytes_length.
    assert (Hq : length (str_bytes m patt) = Z.to_nat (str_len patt))
      by apply read_bytes_length.
    rewrite Hn, Hq in Hlen.
    replace (str_ptr src + Z.of_nat k - str_ptr src) with (Z.of_nat k) by lia.
    set (pre := str_ref_chars (str_ptr src) (Z.of_nat k)).
    set (suf := str_ref_chars (str_ptr src + Z.of_nat k + str_len patt)
                  (str_end src - (str_ptr src + Z.of_nat k + str_len patt))).
    assert (Hpb : str_bytes m pre = take k (str_bytes m src)).
    { unfold pre. rewrite str_bytes_ref_chars by lia.
      rewrite Nat2Z.id. unfold str_bytes at 1.
      symmetry. apply read_bytes_take. lia. }
    assert (Hsb : str_bytes m suf
                  = drop (k + length (str_bytes m patt)) (str_bytes m src)).
    { unfold suf, str_end. rewrite str_bytes_ref_chars by lia.
      rewrite Hq. unfold str_bytes.
      rewrite read_bytes_drop by lia. f_equal; lia. }
    assert (Hk : length (str_bytes m pre) = k).
    { rewrite Hpb, length_take. lia. }
    rewrite Hk.
    split.
    { rewrite Hpb, Hsb.
      replace (drop (k + length (str_bytes m patt)) (str_bytes m src))
        with (drop (length (str_bytes m patt)) (drop k (str_bytes m src)))
        by (rewrite drop_drop; f_equal; lia).
      rewrite <- (is_prefix_app _ _ Hpre).
      apply take_drop. }
    split; [exact Hpre|].
    split; [exact Hmin|].
    split; [unfold str_is_ref, str_is_owner; simpl; now rewrite str_ref_info_even|].
    split; [unfold str_is_ref, str_is_owner; simpl; now rewrite str_ref_info_even|].
    split.
    + unfold pre. apply str_ptr_ref_chars. lia.
    + unfold suf, str_end.
      rewrite str_ptr_ref_chars, str_len_ref_chars by lia. lia.
  - injection E as <- <- <-. split; [discriminate | intros _].
    split; [reflexivity|]. split; [reflexivity|].
    now apply find_first_none.
Qed.

(** ** Code point iteration *)

Lemma is_sentinel_above_max (v : Z) : is_sentinel v -> CP_MAX < v.
Proof. intros [-> | [-> | ->]]; reflexivity. Qed.

Lemma code_point_not_sentinel (v : Z) : v <= CP_MAX -> ~ is_sentinel v.
Proof. intros Hv Hs. apply is_sentinel_above_max in Hs. lia. Qed.

(** What one call of [str_cp_iterator_next] can return. *)
Lemma str_cp_iterator_next_outcome (m : memory) (it : str_cp_iterator) :
  let v := fst (str_cp_iterator_next m it) in
  (0 <= v <= CP_MAX /\ ~ is_sentinel v) \/ (is_sentinel v /\ CP_MAX < v).
Proof using decode_one_range.
  unfold str_cp_iterator_next.
  destruct (end_ it <=? curr it).
  - right. split; [left; reflexivity | reflexivity].
  - destruct (decode_one _ _) as [[cp n| |] st] eqn:E; simpl.
    + left. apply decode_one_range in E.
      split; [exact E | apply code_point_not_sentinel; lia].
    + right. split; [right; left; reflexivity | reflexivity].
    + right. split; [right; right; reflexivity | reflexivity].
Qed.

(** A call that returns a code point moves the cursor forward. *)
Lemma str_cp_iterator_next_advances (m : memory) (it it' : str_cp_iterator) (v : Z) :
  str_cp_iterator_next m it = (v, it') -> v <= CP_MAX ->
  curr it < end_ it /\ curr it < curr it' /\ end_ it' = end_ it.
Proof using decode_one_consumes.
  unfold str_cp_iterator_next.
  destruct (Z.leb_spec (end_ it) (curr it)) as [Hle|Hlt].
  - injection 1 as <- <-. intros Hv. exfalso. revert Hv. now apply Z.lt_nge.
  - destruct (decode_one _ _) as [[cp n| |] st] eqn:E.
    + injection 1 as <- <-. intros _. apply decode_one_consumes in E.
      simpl. lia.
    + injection 1 as <- <-. intros Hv. exfalso. revert Hv. now apply Z.lt_nge.
    + injection 1 as <- <-. intros Hv. exfalso. revert Hv. now apply Z.lt_nge.
Qed.

(** With more iterations allowed than bytes are left, the loop ends, on a
    sentinel, after code points only. *)
Lemma for_each_cp_loop_ends (m : memory) (fuel : nat) (it : str_cp_iterator) :
  (Z.to_nat (end_ it - curr it) < fuel)%nat ->
  exists seen stop,
    for_each_cp_loop fuel m it = Some (seen, stop) /\
    Forall (fun v => 0 <= v <= CP_MAX) seen /\
    is_sentinel stop.
Proof using decode_one_range decode_one_consumes.
  revert it. induction fuel as [|fuel IH]; intros it Hfuel; [lia|].
  simpl.
  pose proof (str_cp_iterator_next_outcome m it) as Hout.
  destruct (str_cp_iterator_next m it) as [v it'] eqn:E. simpl in Hout.
  change 1114111 with CP_MAX.
  destruct (Z.leb_spec v CP_MAX) as [Hv|Hv].
  - destruct (str_cp_iterator_next_advances m it it' v E Hv) as (H1 & H2 & H3).
    destruct (IH it') as (seen & stop & -> & Hseen & Hstop); [lia|].
    exists (v :: seen), stop. split; [reflexivity|]. split; [|exact Hstop].
    constructor; [|exact Hseen].
    destruct Hout as [[Hr _] | [_ Hgt]]; [exact Hr | lia].
  - exists [], v. split; [reflexivity|]. split; [constructor|].
    destruct Hout as [[Hr _] | [Hs _]]; [lia | exact Hs].
Qed.

(** C7: a call of [str_cp_iterator_next] returns a code point in
    [0, 0x10FFFF] or one of the three sentinels, never both; the loop of
    [for_each_cp] stops at a call exactly when that call returns a
    sentinel; and it does stop: within one more iteration than the string
    has bytes it has ended, on a sentinel, its body having run with code
    points only. *)
Theorem for_each_cp_stops_at_sentinel (m : memory) (it : str_cp_iterator) (src : str) :
  (let v := fst (str_cp_iterator_next m it) in
   (0 <= v <= CP_MAX /\ ~ is_sentinel v) \/ (is_sentinel v /\ CP_MAX < v)) /\
  (forall fuel,
     let v := fst (str_cp_iterator_next m it) in
     let it' := snd (str_cp_iterator_next m it) in
     (is_sentinel v -> for_each_cp_loop (S fuel) m it = Some ([], v)) /\
     (~ is_sentinel v ->
        for_each_cp_loop (S fuel) m it =
        match for_each_cp_loop fuel m it' with
        | Some (seen, stop) => Some (v :: seen, stop)
        | None => None
        end)) /\
  (exists seen stop,
     for_each_cp (S (Z.to_nat (str_len src))) m src = Some (seen, stop) /\
     Forall (fun v => 0 <= v <= CP_MAX) seen /\
     is_sentinel stop).
Proof using decode_one_range decode_one_consumes.
  split; [apply str_cp_iterator_next_outcome|].
  split.
  - intros fuel.
    pose proof (str_cp_iterator_next_outcome m it) as Hout.
    cbn [for_each_cp_loop].
    destruct (str_cp_iterator_next m it) as [v it'] eqn:E.
    cbn [fst snd] in *. change 1114111 with CP_MAX.
    destruct (Z.leb_spec v CP_MAX) as [Hv|Hv].
    + split; [|reflexivity].
      intros Hs. apply is_sentinel_above_max in Hs. lia.
    + split; [reflexivity|].
      intros Hn. destruct Hout as [[Hr _] | [Hs _]]; [lia | contradiction].
  - apply for_each_cp_loop_ends.
    unfold str_make_cp_iterator, str_end; simpl. lia.
Qed.

(** ** The packed word, both ways *)

Lemma str_ref_info_double (n : Z) :
  str_ref_info n = 2 * (n mod 2 ^ (size_bits - 1)).
Proof.
  unfold str_ref_info, size_shl, size_wrap, size_modulus, size_bits.
  rewrite Z.shiftl_mul_pow2 by lia.
  change (2 ^ 1) with 2. change (2 ^ 64) with (2 * 2 ^ (64 - 1)).
  rewrite (Z.mul_comm n 2). apply Z.mul_mod_distr_l; lia.
Qed.

Lemma lor_double_1 (k : Z) : Z.lor (2 * k) 1 = 2 * k + 1.
Proof.
  pose proof (Z.add_lor_land (2 * k) 1) as H.
  rewrite land_1_mod in H.
  assert (E : (2 * k) mod 2 = 0) by (rewrite Z.mul_comm; apply Z.mod_mul; lia).
  lia.
Qed.

Lemma str_owner_info_double (n : Z) :
  str_owner_info n = 2 * (n mod 2 ^ (size_bits - 1)) + 1.
Proof. unfold str_owner_info. rewrite str_ref_info_double. apply lor_double_1. Qed.

Lemma shiftr_double (k b : Z) : 0 <= b < 2 -> Z.shiftr (2 * k + b) 1 = k.
Proof.
  intros Hb. rewrite Z.shiftr_div_pow2 by lia. change (2 ^ 1) with 2.
  symmetry. apply Z.div_unique with (r := b); lia.
Qed.

Lemma land_double (k b : Z) : 0 <= b < 2 -> Z.land (2 * k + b) 1 = b.
Proof.
  intros Hb. rewrite land_1_mod.
  symmetry. apply Z.mod_unique with (q := k); lia.
Qed.

Lemma half_size_pos : 0 < 2 ^ (size_bits - 1).
Proof. reflexivity. Qed.

Lemma half_size_double : size_modulus = 2 * 2 ^ (size_bits - 1).
Proof. reflexivity. Qed.

Lemma PTRDIFF_MAX_eq : PTRDIFF_MAX = 2 ^ (size_bits - 1) - 1.
Proof. reflexivity. Qed.

(** What a well-formed [info] word is made of. *)
Lemma info_decompose (i : Z) :
  is_size_t i ->
  exists k b, i = 2 * k + b /\ 0 <= k <= PTRDIFF_MAX /\ (b = 0 \/ b = 1).
Proof.
  intros [Hlo Hhi]. rewrite half_size_double in Hhi.
  exists (i / 2), (i mod 2).
  pose proof (Z.div_mod i 2 ltac:(lia)).
  pose proof (Z.mod_pos_bound i 2 ltac:(lia)).
  rewrite PTRDIFF_MAX_eq.
  split; [lia|]. split; [|lia].
  split; [apply Z.div_pos; lia|].
  assert (i / 2 < 2 ^ (size_bits - 1)); [|lia].
  apply Z.div_lt_upper_bound; lia.
Qed.

(** The macros pack a [size_t] length and the flag into [info];
    [str_len] and [str_is_owner] read them back, the length reduced
    modulo [2^63]: the shift drops the top bit of a longer length. *)
Theorem str_info_pack (p n : Z) :
  is_size_t n ->
  str_len {| ptr := p; info := str_ref_info n |} = n mod 2 ^ (size_bits - 1) /\
  str_is_owner {| ptr := p; info := str_ref_info n |} = false /\
  str_len {| ptr := p; info := str_owner_info n |} = n mod 2 ^ (size_bits - 1) /\
  str_is_owner {| ptr := p; info := str_owner_info n |} = true /\
  is_size_t (str_ref_info n) /\
  is_size_t (str_owner_info n) /\
  (0 <= n <= PTRDIFF_MAX -> n mod 2 ^ (size_bits - 1) = n).
Proof.
  intros _.
  pose proof (Z.mod_pos_bound n _ half_size_pos) as Hk.
  unfold str_len, str_is_owner, is_size_t; cbn [info].
  rewrite str_owner_info_double, str_ref_info_double.
  set (k := n mod 2 ^ (size_bits - 1)) in *.
  assert (Hsr : Z.shiftr (2 * k) 1 = k).
  { rewrite <- (Z.add_0_r (2 * k)). apply shiftr_double. lia. }
  assert (Hlr : Z.land (2 * k) 1 = 0).
  { rewrite <- (Z.add_0_r (2 * k)). apply land_double. lia. }
  rewrite Hsr, Hlr, shiftr_double, land_double by lia.
  rewrite half_size_double.
  split; [reflexivity|]. split; [reflexivity|].
  split; [reflexivity|]. split; [reflexivity|].
  split; [lia|]. split; [lia|].
  intros Hn. apply Z.mod_small. rewrite PTRDIFF_MAX_eq in Hn. lia.
Qed.

(** The other way round: a well-formed [info] is what the macros build
    from the length and the flag read off it, so a value is determined by
    its pointer, its length and whether it owns. *)
Theorem str_info_unpack (s : str) :
  is_size_t (info s) ->
  0 <= str_len s <= PTRDIFF_MAX /\
  info s = (if str_is_owner s then str_owner_info (str_len s)
            else str_ref_info (str_len s)) /\
  (forall s', is_size_t (info s') ->
     ptr s' = ptr s -> str_len s' = str_len s ->
     str_is_owner s' = str_is_owner s -> s' = s).
Proof.
  assert (Hun : forall r, is_size_t (info r) ->
            0 <= str_len r <= PTRDIFF_MAX /\
            info r = (if str_is_owner r then str_owner_info (str_len r)
                      else str_ref_info (str_len r))).
  { intros r Hr. destruct (info_decompose _ Hr) as (k & b & Hi & Hk & Hb).
    unfold str_len, str_is_owner. rewrite Hi.
    rewrite shiftr_double, land_double by lia.
    rewrite str_owner_info_double, str_ref_info_double.
    rewrite PTRDIFF_MAX_eq in Hk. rewrite Z.mod_small by lia.
    rewrite PTRDIFF_MAX_eq.
    destruct Hb as [-> | ->]; simpl; split; lia. }
  intros Hs. destruct (Hun s Hs) as [Hlen Hinfo].
  split; [exact Hlen|]. split; [exact Hinfo|].
  intros s' Hs' Hp Hl Ho. destruct (Hun s' Hs') as [_ Hinfo'].
  rewrite Hl, Ho, <- Hinfo in Hinfo'.
  destruct s, s'; simpl in *. congruence.
Qed.

(** [str_ref_impl] yields the reference to the same pointer and length;
    applying it again changes nothing, and the values it leaves as they
    are are exactly the references. *)
Theorem str_ref_impl_fixed_points (s : str) :
  is_size_t (info s) ->
  str_ref_impl s = {| ptr := ptr s; info := str_ref_info (str_len s) |} /\
  str_ref_impl (str_ref_impl s) = str_ref_impl s /\
  (str_ref_impl s = s <-> str_is_ref s = true).
Proof.
  intros Hs.
  destruct (info_decompose _ Hs) as (k & b & Hi & Hk & Hb).
  assert (Hmask : Z.land (info s) (size_not 1) = 2 * k).
  { pose proof (clear_low_bit_shiftr _ Hs) as Hsh.
    pose proof (clear_low_bit_even (info s)) as Hev.
    pose proof (clear_low_bit_size_t _ Hs) as Hsz.
    destruct (info_decompose _ Hsz) as (k' & b' & Hi' & Hk' & Hb').
    rewrite Hi' in Hsh, Hev. rewrite Hi in Hsh at 1.
    rewrite !shiftr_double in Hsh by lia.
    rewrite land_double in Hev by lia. lia. }
  split; [|split].
  - unfold str_ref_impl, str_len. rewrite Hmask, Hi, shiftr_double by lia.
    rewrite str_ref_info_double.
    rewrite PTRDIFF_MAX_eq in Hk. now rewrite Z.mod_small by lia.
  - unfold str_ref_impl; simpl. now rewrite clear_low_bit_idem.
  - unfold str_ref_impl, str_is_ref, str_is_owner.
    rewrite Hmask, Hi, land_double by lia.
    destruct s as [p i]; simpl in *. subst i. split.
    + intros E. injection E as E.
      destruct Hb as [-> | ->]; [reflexivity | lia].
    + intros E. destruct Hb as [-> | ->]; [|discriminate].
      now rewrite Z.add_0_r.
Qed.

(** ** Ownership is never duplicated *)

Lemma owner_count_one (x : str) :
  owner_count [x] = if str_is_owner x then 1%nat else 0%nat.
Proof. unfold owner_count; simpl. now destruct (str_is_owner x). Qed.

(** [str_move] and [str_pass] hand the ownership on: of the returned value
    and the variable's new value as many are owners as the variable's
    former value was, so no second owner of a buffer is made;
    [str_ref_impl] yields no owner. *)
Theorem str_move_pass_conserve_ownership (x : str) :
  owner_count [fst (str_move x); snd (str_move x)] = owner_count [x] /\
  owner_count [fst (str_pass x); snd (str_pass x)] = owner_count [x] /\
  owner_count [str_ref_impl x] = 0%nat /\
  (owner_count [x] <= 1)%nat.
Proof.
  rewrite owner_count_one.
  unfold owner_count; cbn [List.filter fst snd str_move str_pass].
  rewrite str_is_owner_null.
  unfold str_ref_impl. rewrite (str_is_owner_clear (info x) (ptr x)).
  destruct (str_is_owner x); simpl; repeat split; lia.
Qed.

(** Values stay values of the C type: [info] stays within [size_t] and
    the pointer is kept, through [str_move], [str_pass] and
    [str_ref_impl]; [str_null] and every [str_lit] are well formed. *)
Theorem str_values_stay_well_formed (x : str) :
  wf_str x ->
  wf_str str_null /\
  wf_str (fst (str_move x)) /\ wf_str (snd (str_move x)) /\
  wf_str (fst (str_pass x)) /\ wf_str (snd (str_pass x)) /\
  wf_str (str_ref_impl x) /\
  (forall L, wf_str (str_lit (ptr x) L)).
Proof.
  intros [Hp Hi].
  assert (Hnull : wf_str str_null).
  { split; [reflexivity|]. split; [discriminate | reflexivity]. }
  assert (Href : wf_str (str_ref_impl x)).
  { split; [exact Hp | now apply clear_low_bit_size_t]. }
  split; [exact Hnull|].
  split; [split; assumption|].
  split; [exact Hnull|].
  split; [split; assumption|].
  split; [exact Href|].
  split; [exact Href|].
  intros L. split; [exact Hp|].
  unfold str_lit; cbn [info]. rewrite str_ref_info_double.
  pose proof (Z.mod_pos_bound (size_sub (sizeof_lit L) 1) _ half_size_pos).
  unfold is_size_t. rewrite half_size_double. lia.
Qed.

(** ** Accessors and content *)

Lemma str_bytes_length (m : memory) (s : str) :
  length (str_bytes m s) = Z.to_nat (str_len s).
Proof. apply read_bytes_length. Qed.

Lemma str_len_ref_impl (s : str) :
  is_size_t (info s) -> str_len (str_ref_impl s) = str_len s.
Proof. intros Hs. unfold str_len, str_ref_impl; simpl. now apply clear_low_bit_shiftr. Qed.

(** The emptiness test agrees with the accessors: a value is empty
    exactly when [str_ptr] and [str_end] coincide, exactly when its
    content has no byte, and exactly when [info] is 0 or 1; the content
    always has [str_len] bytes. *)
Theorem str_is_empty_iff (m : memory) (s : str) :
  is_size_t (info s) ->
  (str_is_empty s = true <-> str_ptr s = str_end s) /\
  (str_is_empty s = true <-> str_bytes m s = []) /\
  (str_is_empty s = true <-> info s = 0 \/ info s = 1) /\
  Z.of_nat (length (str_bytes m s)) = str_len s.
Proof.
  intros Hs.
  destruct (info_decompose _ Hs) as (k & b & Hi & Hk & Hb).
  assert (Hlen : str_len s = k).
  { unfold str_len. rewrite Hi. apply shiftr_double. lia. }
  pose proof (str_bytes_length m s) as Hbl.
  unfold str_is_empty, str_end. rewrite Z.eqb_eq.
  split; [lia|]. split; [|split].
  - split.
    + intros E. apply length_zero_iff_nil. rewrite Hbl, E. reflexivity.
    + intros E. rewrite E in Hbl. simpl in Hbl. lia.
  - lia.
  - lia.
Qed.

(** A reference made by [str_ref_impl], and what [str_pass] leaves in the
    variable, read the same bytes as the original: same [str_ptr], same
    [str_end], same emptiness, same content. *)
Theorem str_ref_pass_same_content (m : memory) (x : str) :
  is_size_t (info x) ->
  snd (str_pass x) = str_ref_impl x /\
  str_ptr (str_ref_impl x) = str_ptr x /\
  str_end (str_ref_impl x) = str_end x /\
  str_is_empty (str_ref_impl x) = str_is_empty x /\
  str_bytes m (str_ref_impl x) = str_bytes m x /\
  str_bytes m (fst (str_pass x)) = str_bytes m x.
Proof.
  intros Hx. pose proof (str_len_ref_impl x Hx) as Hl.
  assert (Hp : str_ptr (str_ref_impl x) = str_ptr x) by reflexivity.
  split; [reflexivity|]. split; [exact Hp|].
  split; [unfold str_end; now rewrite Hp, Hl|].
  split; [unfold str_is_empty; now rewrite Hl|].
  split; [unfold str_bytes; now rewrite Hp, Hl | reflexivity].
Qed.

(** Reading a [str_lit] value gives the characters of the literal back:
    with the literal stored at its address, the content is the literal,
    [str_ptr] is its address, and the value is empty only for the empty
    literal. *)
Theorem str_lit_reads_literal (m : memory) (addr : Z) (L : list byte) :
  addr <> 0 ->
  Z.of_nat (length L) + 1 <= PTRDIFF_MAX ->
  holds_at m addr L ->
  str_ptr (str_lit addr L) = addr /\
  str_bytes m (str_lit addr L) = L /\
  (str_is_empty (str_lit addr L) = true <-> L = []).
Proof.
  intros Ha HL Hm.
  assert (Hmax : PTRDIFF_MAX < size_modulus) by reflexivity.
  assert (Hlen : str_len (str_lit addr L) = Z.of_nat (length L)).
  { unfold str_len, str_lit, sizeof_lit, size_sub, size_wrap; cbn [info].
    rewrite (Z.mod_small (Z.of_nat (length L) + 1)) by lia.
    replace (Z.of_nat (length L) + 1 - 1) with (Z.of_nat (length L)) by lia.
    rewrite Z.mod_small by lia.
    apply str_ref_info_shiftr. lia. }
  assert (Hptr : str_ptr (str_lit addr L) = addr).
  { unfold str_ptr, str_lit; cbn [ptr].
    destruct (Z.eqb_spec addr 0); [contradiction | reflexivity]. }
  split; [exact Hptr|]. split.
  - unfold str_bytes. rewrite Hptr, Hlen, Nat2Z.id. exact Hm.
  - unfold str_is_empty. rewrite Hlen, Z.eqb_eq.
    rewrite <- length_zero_iff_nil. lia.
Qed.

(** ** Assignment composed with the movements *)

(** Assigning a variable what [str_move] or [str_pass] just took out of
    that same variable, as in [str_assign(&s, str_move(&s))], puts the
    former value back and releases nothing: the variable is no owner when
    [str_assign] frees it. *)
Theorem str_assign_self_move (x : str) (h : heap) :
  str_assign (snd (str_move x)) (fst (str_move x)) h = Some (x, h) /\
  str_assign (snd (str_pass x)) (fst (str_pass x)) h = Some (x, h).
Proof.
  split; unfold str_assign, str_move, str_pass; cbn [fst snd].
  - now rewrite (str_free_ref _ h str_is_owner_null).
  - now rewrite (str_free_ref _ h (str_is_owner_clear (info x) (ptr x))).
Qed.

(** [str_clear] leaves [str_null] in the variable whenever it succeeds,
    and clearing again then succeeds and changes nothing; on a reference
    it leaves the allocator's state alone, and on an owner of a live
    buffer it releases that buffer. *)
Theorem str_clear_idempotent (d : str) (h : heap) :
  (forall d' h', str_clear d h = Some (d', h') ->
     d' = str_null /\ str_is_empty d' = true /\ str_is_owner d' = false /\
     str_clear d' h' = Some (d', h')) /\
  (str_is_owner d = false -> str_clear d h = Some (str_null, h)) /\
  (str_is_owner d = true -> ptr d <> 0 -> h !! ptr d = Some Allocated ->
     str_clear d h = Some (str_null, <[ptr d := Released]> h)).
Proof.
  unfold str_clear, str_assign. split; [|split].
  - intros d' h'. destruct (str_free d h) as [h1|]; [|discriminate].
    injection 1 as <- <-.
    split; [reflexivity|]. split; [reflexivity|]. split; [reflexivity|].
    now rewrite (str_free_ref _ h1 str_is_owner_null).
  - intros Hr. now rewrite str_free_ref.
  - intros Ho Hp Hl. now rewrite str_free_owner.
Qed.

(** ** The loop of [for_each_cp], whatever the iterator *)

Lemma for_each_cp_with_more_fuel {I : Type} (next : I -> Z * I)
    (fuel : nat) (it : I) (r : list Z * Z) :
  for_each_cp_with next fuel it = Some r ->
  forall fuel', (fuel <= fuel')%nat -> for_each_cp_with next fuel' it = Some r.
Proof.
  revert it r. induction fuel as [|fuel IH]; intros it r; [discriminate|].
  intros E [|fuel'] Hle; [lia|]. simpl in *.
  destruct (next it) as [v it'].
  destruct (v <=? 1114111); [|exact E].
  destruct (for_each_cp_with next fuel it') as [[seen stop]|] eqn:F;
    [|discriminate].
  now rewrite (IH it' _ F fuel') by lia.
Qed.

(** The loop defined over [str_cp_iterator_next] is the general one. *)
Lemma for_each_cp_loop_with (m : memory) (fuel : nat) (it : str_cp_iterator) :
  for_each_cp_loop fuel m it
  = for_each_cp_with (str_cp_iterator_next m) fuel it.
Proof.
  revert it. induction fuel as [|fuel IH]; intros it; [reflexivity|].
  simpl. destruct (str_cp_iterator_next m it) as [v it'].
  now rewrite IH.
Qed.

(** Whatever the iterator does, when the loop of [for_each_cp] has ended
    its body has run only with values up to [0x10FFFF], in fewer
    iterations than were allowed, and the value that ended it is above
    [0x10FFFF]; allowing more iterations gives the same outcome. *)
Theorem for_each_cp_with_guard {I : Type} (next : I -> Z * I)
    (fuel : nat) (it : I) (seen : list Z) (stop : Z) :
  for_each_cp_with next fuel it = Some (seen, stop) ->
  Forall (fun v => v <= CP_MAX) seen /\
  CP_MAX < stop /\
  (length seen < fuel)%nat /\
  (forall fuel', (fuel <= fuel')%nat ->
     for_each_cp_with next fuel' it = Some (seen, stop)).
Proof.
  intros E.
  assert (H : Forall (fun v => v <= CP_MAX) seen /\ CP_MAX < stop /\
              (length seen < fuel)%nat).
  { revert it seen stop E.
    induction fuel as [|fuel IH]; intros it seen stop; [discriminate|].
    simpl. destruct (next it) as [v it'].
    change 1114111 with CP_MAX.
    destruct (Z.leb_spec v CP_MAX) as [Hv|Hv].
    - destruct (for_each_cp_with next fuel it') as [[seen' stop']|] eqn:F;
        [|discriminate].
      injection 1 as <- <-.
      destruct (IH it' _ _ F) as (Hs & Hstop & Hn).
      split; [constructor; assumption|]. split; [exact Hstop|]. simpl. lia.
    - injection 1 as <- <-.
      split; [constructor|]. split; [exact Hv|]. simpl. lia. }
  destruct H as (Hs & Hstop & Hn).
  split; [exact Hs|]. split; [exact Hstop|]. split; [exact Hn|].
  now apply for_each_cp_with_more_fuel.
Qed.

(** [str_make_cp_iterator] sets the iterator on exactly the bytes of the
    string: a cursor that is not null, an end that is [str_len] bytes
    after it, the content in between; for a null pointer the cursor is
    the shared empty string. *)
Theorem str_make_cp_iterator_spans (m : memory) (s : str) :
  wf_str s ->
  0 < curr (str_make_cp_iterator s) <= end_ (str_make_cp_iterator s) /\
  end_ (str_make_cp_iterator s) - curr (str_make_cp_iterator s) = str_len s /\
  read_bytes m (curr (str_make_cp_iterator s))
    (Z.to_nat (end_ (str_make_cp_iterator s) - curr (str_make_cp_iterator s)))
  = str_bytes m s /\
  (ptr s = 0 -> curr (str_make_cp_iterator s) = str_empty_string).
Proof using str_empty_string_nonnull.
  intros [Hp Hi].
  pose proof (str_len_bounds s Hi) as Hl.
  pose proof (str_ptr_pos s Hp) as Hpos.
  unfold str_make_cp_iterator, str_end; cbn [curr end_].
  split; [lia|]. split; [lia|]. split.
  - unfold str_bytes. f_equal. f_equal. lia.
  - intros E. unfold str_ptr. now rewrite E.
Qed.

End Str.

(** * Instances *)

(** The sample decoder keeps the collaborator's promises. *)
Lemma utf8_decode_short_range (st : unit) (bs : list byte) (cp : Z) (n : nat) (st' : unit) :
  utf8_decode_short st bs = (Decoded cp n, st') -> 0 <= cp <= CP_MAX.
Proof.
  unfold utf8_decode_short, CP_MAX.
  destruct bs as [|b0 rest]; [discriminate|].
  destruct (Z.ltb_spec (Z.of_N (Byte.to_N b0)) 128).
  - injection 1 as <- _ _. lia.
  - destruct (Z.leb_spec 194 (Z.of_N (Byte.to_N b0)));
      destruct (Z.leb_spec (Z.of_N (Byte.to_N b0)) 223); simpl; try discriminate.
    destruct rest as [|b1 rest]; [discriminate|].
    destruct (Z.leb_spec 128 (Z.of_N (Byte.to_N b1)));
      destruct (Z.leb_spec (Z.of_N (Byte.to_N b1)) 191); simpl; try discriminate.
    injection 1 as <- _ _. lia.
Qed.

Lemma utf8_decode_short_consumes (st : unit) (bs : list byte) (cp : Z) (n : nat) (st' : unit) :
  utf8_decode_short st bs = (Decoded cp n, st') -> (1 <= n)%nat.
Proof.
  unfold utf8_decode_short.
  destruct bs as [|b0 rest]; [discriminate|].
  destruct (Z.of_N (Byte.to_N b0) <? 128); [injection 1 as _ <- _; lia|].
  destruct ((194 <=? Z.of_N (Byte.to_N b0)) && (Z.of_N (Byte.to_N b0) <=? 223));
    [|discriminate].
  destruct rest as [|b1 rest]; [discriminate|].
  destruct ((128 <=? Z.of_N (Byte.to_N b1)) && (Z.of_N (Byte.to_N b1) <=? 191));
    [|discriminate].
  injection 1 as _ <- _. lia.
Qed.

Example str_len_sample_owner : str_len sample_owner = 5 /\ str_is_owner sample_owner = true.
Proof. split; reflexivity. Qed.

Example str_partition_sample :
  str_partition sample_empty_string sample_memory sample_src sample_patt str_null str_null
  = (true, {| ptr := 4096; info := 6 |}, {| ptr := 4100; info := 10 |}).
Proof. reflexivity. Qed.

Example str_partition_sample_miss :
  str_partition sample_empty_string sample_memory sample_patt sample_src sample_owner sample_ref
  = (false, sample_owner, sample_ref).
Proof. reflexivity. Qed.

Example str_cmp_sample :
  str_cmp sample_empty_string sample_memory sample_src sample_patt = 1 /\
  str_cmp sample_empty_string sample_memory sample_patt sample_src = -1 /\
  str_cmp sample_empty_string sample_memory str_null {| ptr := 4096; info := 0 |} = 0.
Proof. repeat split. Qed.

Example for_each_cp_sample :
  for_each_cp sample_empty_string unit tt utf8_decode_short 4 sample_utf8_memory sample_utf8
  = Some ([104; 233], CPI_END_OF_STRING).
Proof. reflexivity. Qed.

Example for_each_cp_sample_truncated :
  for_each_cp sample_empty_string unit tt utf8_decode_short 3 sample_utf8_memory
    {| ptr := 4096; info := str_ref_info 2 |}
  = Some ([104], CPI_ERR_INCOMPLETE_SEQ).
Proof. reflexivity. Qed.

(** The sample values are values of the C types. *)
Lemma sample_owner_size_t : is_size_t (info sample_owner).
Proof. vm_compute. split; [discriminate | reflexivity]. Defined.

Lemma sample_ref_size_t : is_size_t (info sample_ref).
Proof. vm_compute. split; [discriminate | reflexivity]. Defined.

Lemma sample_src_wf : wf_str sample_src.
Proof. vm_compute. repeat split; discriminate. Defined.

Lemma sample_patt_wf : wf_str sample_patt.
Proof. vm_compute. repeat split; discriminate. Defined.

Lemma sample_empty_string_nonnull : 0 < sample_empty_string.
Proof. reflexivity. Defined.

Lemma sample_heap_live : sample_heap !! ptr sample_owner = Some Allocated.
Proof. reflexivity. Defined.

Lemma sample_owner_nonnull : ptr sample_owner <> 0.
Proof. discriminate. Defined.

(** C9 at [sample_owner]. *)
Lemma str_ref_impl_frame_sample :
  str_is_owner sample_owner = true /\
  str_is_owner (str_ref_impl sample_owner) = false /\
  ptr (str_ref_impl sample_owner) = ptr sample_owner /\
  str_len (str_ref_impl sample_owner) = str_len sample_owner /\
  Z.shiftr (Z.land (info sample_owner) (size_not 1)) 1
    = Z.shiftr (info sample_owner) 1.
Proof.
  split; [reflexivity|].
  apply (str_ref_impl_frame sample_owner sample_owner_size_t).
Defined.

(** C10 at [sample_ref], a reference, and at what [str_pass] leaves of it. *)
Lemma str_pass_idempotent_sample :
  str_pass sample_ref = (sample_ref, sample_ref) /\
  (forall t1 x1, str_pass sample_ref = (t1, x1) ->
     str_is_ref x1 = true /\ str_pass x1 = (x1, x1)).
Proof.
  destruct (str_pass_idempotent sample_ref sample_ref_size_t) as [Hid Htwice].
  split; [apply Hid; reflexivity | exact Htwice].
Defined.

(** C6 at the literal [hello] stored at 4096. *)
Lemma str_lit_ref_length_sample :
  str_is_owner (str_lit 4096 sample_literal) = false /\
  str_is_ref (str_lit 4096 sample_literal) = true /\
  str_len (str_lit 4096 sample_literal) = 5 /\
  str_len (str_lit 4096 sample_literal) = sizeof_lit sample_literal - 1 /\
  ptr (str_lit 4096 sample_literal) = 4096.
Proof.
  apply (str_lit_ref_length 4096 sample_literal).
  vm_compute. discriminate.
Defined.

(** C2, amended, at [sample_owner] with its buffer live. *)
Lemma str_pass_hands_over_sample :
  fst (str_pass sample_owner) = sample_owner /\
  str_is_owner (snd (str_pass sample_owner)) = false /\
  str_free_both (fst (str_pass sample_owner)) (snd (str_pass sample_owner)) sample_heap
    = Some (<[4096 := Released]> sample_heap).
Proof.
  destruct (str_pass_hands_over sample_owner sample_owner_size_t)
    as (Hret & _ & _ & Hown & _ & Hfree).
  split; [exact Hret|]. split; [exact Hown|].
  exact (Hfree sample_heap eq_refl sample_owner_nonnull sample_heap_live).
Defined.

(** C1, amended, at [sample_owner] assigned a reference to its own bytes. *)
Lemma str_assign_frees_then_stores_sample :
  exists h',
    str_assign sample_owner sample_ref sample_heap = Some (sample_ref, h') /\
    h' = <[ptr sample_owner := Released]> sample_heap /\
    (ptr sample_ref = ptr sample_owner -> str_dangling h' sample_ref).
Proof.
  exact (proj2 (str_assign_frees_then_stores sample_owner sample_ref sample_heap)
           eq_refl sample_owner_nonnull sample_heap_live).
Defined.

(** C4 at [str_null]. *)
Lemma str_ptr_never_null_sample :
  str_ptr sample_empty_string str_null <> 0 /\
  (ptr str_null = 0 -> str_ptr sample_empty_string str_null = sample_empty_string) /\
  (ptr str_null <> 0 -> str_ptr sample_empty_string str_null = ptr str_null) /\
  (str_len str_null = 0 ->
     str_is_empty str_null = true /\
     str_bytes sample_empty_string sample_memory str_null = []).
Proof.
  exact (str_ptr_never_null sample_empty_string sample_empty_string_nonnull
           sample_memory str_null).
Defined.

(** C8 at the source [key=value] and the pattern [=]. *)
Lemma str_partition_round_trip_sample :
  let prefix' := {| ptr := 4096; info := 6 |} in
  let suffix' := {| ptr := 4100; info := 10 |} in
  str_partition sample_empty_string sample_memory sample_src sample_patt
    str_null str_null = (true, prefix', suffix') /\
  str_bytes sample_empty_string sample_memory prefix'
    ++ str_bytes sample_empty_string sample_memory sample_patt
    ++ str_bytes sample_empty_string sample_memory suffix'
  = str_bytes sample_empty_string sample_memory sample_src.
Proof.
  split; [reflexivity|].
  exact (proj1 (proj1 (str_partition_round_trip sample_empty_string
                         sample_empty_string_nonnull sample_memory
                         sample_src sample_patt str_null str_null
                         sample_src_wf sample_patt_wf
                         true _ _ eq_refl) eq_refl)).
Defined.

(** C7 with the sample decoder, over the three bytes of [sample_utf8]. *)
Lemma for_each_cp_stops_at_sentinel_sample :
  exists seen stop,
    for_each_cp sample_empty_string unit tt utf8_decode_short
      (S (Z.to_nat (str_len sample_utf8))) sample_utf8_memory sample_utf8
    = Some (seen, stop) /\
    Forall (fun v => 0 <= v <= CP_MAX) seen /\
    is_sentinel stop.
Proof.
  exact (proj2 (proj2 (for_each_cp_stops_at_sentinel sample_empty_string unit tt
                         utf8_decode_short utf8_decode_short_range
                         utf8_decode_short_consumes sample_utf8_memory
                         (str_make_cp_iterator sample_empty_string unit tt sample_utf8)
                         sample_utf8))).
Defined.

(** ** Further instances *)

Lemma sample_owner_wf : wf_str sample_owner.
Proof. vm_compute. repeat split; discriminate. Defined.

Lemma str_null_size_t : is_size_t (info str_null).
Proof. vm_compute. split; [discriminate | reflexivity]. Defined.

Lemma sample_literal_stored : holds_at sample_literal_memory 4096 sample_literal.
Proof. reflexivity. Defined.

Example countdown_loop :
  for_each_cp_with countdown_next 3 2%nat = Some ([66; 65], CPI_END_OF_STRING).
Proof. reflexivity. Defined.

Example str_info_pack_overflow :
  str_len {| ptr := 4096; info := str_ref_info (2 ^ 63 + 5) |} = 5.
Proof. reflexivity. Qed.

(** Unpacking at [sample_owner]. *)
Lemma str_info_unpack_sample :
  0 <= str_len sample_owner <= PTRDIFF_MAX /\
  info sample_owner = str_owner_info (str_len sample_owner).
Proof.
  destruct (str_info_unpack sample_owner sample_owner_size_t) as (Hl & Hi & _).
  split; [exact Hl | exact Hi].
Defined.

(** [str_ref_impl] at [sample_owner], which is no fixed point. *)
Lemma str_ref_impl_fixed_points_sample :
  str_ref_impl sample_owner = sample_ref /\
  str_ref_impl (str_ref_impl sample_owner) = str_ref_impl sample_owner /\
  (str_ref_impl sample_owner = sample_owner <-> str_is_ref sample_owner = true).
Proof.
  exact (str_ref_impl_fixed_points sample_owner sample_owner_size_t).
Defined.

(** Well-formedness at [sample_owner]. *)
Lemma str_values_stay_well_formed_sample :
  wf_str (snd (str_pass sample_owner)) /\ wf_str (str_ref_impl sample_owner) /\
  wf_str (str_lit (ptr sample_owner) sample_literal).
Proof.
  destruct (str_values_stay_well_formed sample_owner sample_owner_wf)
    as (_ & _ & _ & _ & Hpass & Href & Hlit).
  split; [exact Hpass|]. split; [exact Href | exact (Hlit sample_literal)].
Defined.

(** Emptiness at [str_null]. *)
Lemma str_is_empty_iff_sample :
  (str_is_empty str_null = true <->
     str_ptr sample_empty_string str_null = str_end sample_empty_string str_null) /\
  (str_is_empty str_null = true <->
     str_bytes sample_empty_string sample_memory str_null = []) /\
  (str_is_empty str_null = true <-> info str_null = 0 \/ info str_null = 1) /\
  Z.of_nat (length (str_bytes sample_empty_string sample_memory str_null))
    = str_len str_null.
Proof.
  exact (str_is_empty_iff sample_empty_string sample_memory str_null str_null_size_t).
Defined.

(** Content through [str_ref_impl] and [str_pass] at [sample_owner]. *)
Lemma str_ref_pass_same_content_sample :
  snd (str_pass sample_owner) = str_ref_impl sample_owner /\
  str_bytes sample_empty_string sample_literal_memory (str_ref_impl sample_owner)
    = str_bytes sample_empty_string sample_literal_memory sample_owner.
Proof.
  destruct (str_ref_pass_same_content sample_empty_string sample_literal_memory
              sample_owner sample_owner_size_t) as (Hp & _ & _ & _ & Hb & _).
  split; [exact Hp | exact Hb].
Defined.

(** The literal [hello] read back. *)
Lemma str_lit_reads_literal_sample :
  str_ptr sample_empty_string (str_lit 4096 sample_literal) = 4096 /\
  str_bytes sample_empty_string sample_literal_memory (str_lit 4096 sample_literal)
    = sample_literal /\
  (str_is_empty (str_lit 4096 sample_literal) = true <-> sample_literal = []).
Proof.
  apply (str_lit_reads_literal sample_empty_string sample_literal_memory 4096
           sample_literal).
  - discriminate.
  - vm_compute. discriminate.
  - exact sample_literal_stored.
Defined.

(** Clearing [sample_owner] with its buffer live. *)
Lemma str_clear_idempotent_sample :
  str_clear sample_owner sample_heap
  = Some (str_null, <[ptr sample_owner := Released]> sample_heap).
Proof.
  exact (proj2 (proj2 (str_clear_idempotent sample_owner sample_heap))
           eq_refl sample_owner_nonnull sample_heap_live).
Defined.

(** The loop over the countdown from 2. *)
Lemma for_each_cp_with_guard_sample :
  Forall (fun v => v <= CP_MAX) [66; 65] /\
  CP_MAX < CPI_END_OF_STRING /\
  (length [66; 65] < 3)%nat /\
  (forall fuel', (3 <= fuel')%nat ->
     for_each_cp_with countdown_next fuel' 2%nat
     = Some ([66; 65], CPI_END_OF_STRING)).
Proof.
  exact (for_each_cp_with_guard countdown_next 3 2%nat [66; 65]
           CPI_END_OF_STRING countdown_loop).
Defined.

(** The iterator over [sample_src]. *)
Lemma str_make_cp_iterator_spans_sample :
  0 < curr unit (str_make_cp_iterator sample_empty_string unit tt sample_src)
    <= end_ unit (str_make_cp_iterator sample_empty_string unit tt sample_src) /\
  end_ unit (str_make_cp_iterator sample_empty_string unit tt sample_src)
    - curr unit (str_make_cp_iterator sample_empty_string unit tt sample_src)
    = str_len sample_src.
Proof.
  destruct (str_make_cp_iterator_spans sample_empty_string
              sample_empty_string_nonnull unit tt sample_memory sample_src
              sample_src_wf) as (Hr & Hl & _).
  split; [exact Hr | exact Hl].
Defined.

(** Packing at a length with the top bit set, [2^63 + 5]: it reads back
    as 5. *)
Lemma str_info_pack_sample :
  is_size_t (2 ^ 63 + 5) /\
  str_len {| ptr := 4096; info := str_ref_info (2 ^ 63 + 5) |} = 5 /\
  str_is_owner {| ptr := 4096; info := str_ref_info (2 ^ 63 + 5) |} = false /\
  str_len {| ptr := 4096; info := str_owner_info (2 ^ 63 + 5) |} = 5 /\
  str_is_owner {| ptr := 4096; info := str_owner_info (2 ^ 63 + 5) |} = true.
Proof.
  assert (Hn : is_size_t (2 ^ 63 + 5))
    by (vm_compute; split; [discriminate | reflexivity]).
  destruct (str_info_pack 4096 (2 ^ 63 + 5) Hn) as (H1 & H2 & H3 & H4 & _).
  split; [exact Hn|].
  split; [exact H1|]. split; [exact H2|]. split; [exact H3 | exact H4].
Defined.
